(** * Shallow embedding of [do_work_async] (src/examples/small/src/work.rs)

    The async function is modelled as the future the compiler generates for
    it: a resumable state machine with the states [Unresumed] (created by the
    call, body not yet run), [Suspended] (parked at the [await!] on the
    [poll_fn] future) and [Returned].  Its environment is the shared
    [Arc<AtomicBool>] (absent until [AtomicBool::new(false)] runs), the
    timeout thread (absent until [thread::spawn] runs, then the list of its
    remaining instructions), and the observable output: [println!] lines,
    wake-ups, the thread's sleep and store, and poll results.

    A run interleaves polls by the executor with single steps of the timeout
    thread.  All shared accesses are [SeqCst] atomics, so runs are
    interleavings; a poll touches the shared flag once (a single load). *)

From Stdlib Require Import ZArith List Bool Lia.
Import ListNotations.

Module Work.

(** [thread::current().id()] of the thread that runs a poll. *)
Definition ThreadId := nat.

(** [std::task::Poll<()>], plus the panic of a completed async fn future
    (the generated state machine panics with "`async fn` resumed after
    completion" when it is resumed in its [Returned] state). *)
Inductive poll := Ready | Pending | Panicked.

(** Observable effects, in program order. *)
Inductive effect :=
| Println_start (x : Z) (tid : ThreadId)  (* "starting work {} on thread {:?}" *)
| Println_done (x : Z) (tid : ThreadId)   (* "work done! {} on thread {:?}" *)
| Spawn                                   (* thread::spawn of the timeout thread *)
| Wake                                    (* lw.wake() *)
| Slept (ms : nat)                        (* sleep(Duration::from_millis(ms)) returned *)
| Store (b : bool)                        (* timeout_flag.store(b, Ordering::SeqCst) *)
| Polled (r : poll).                      (* result handed back to the executor *)

(** Body of the timeout thread, one constructor per statement. *)
Inductive instr :=
| ISleep (ms : nat)
| IStore (b : bool).

(** [move || { sleep(Duration::from_millis(500)); timeout_flag.store(true, SeqCst); }] *)
Definition timeout_thread_body : list instr := [ISleep 500; IStore true].

(** States of the future returned by [do_work_async x]. *)
Inductive fut_state :=
| Unresumed (x : Z)
| Suspended (x : Z)
| Returned.

Record world := mk_world {
  fut : fut_state;
  flag : option bool;            (* the Arc<AtomicBool>; None before it is allocated *)
  timer : option (list instr);   (* the timeout thread; None before it is spawned *)
  out : list effect
}.

Definition emit (w : world) (es : list effect) : world :=
  mk_world (fut w) (flag w) (timer w) (out w ++ es).

Definition set_fut (w : world) (f : fut_state) : world :=
  mk_world f (flag w) (timer w) (out w).

(** [flag.load(Ordering::SeqCst)].  The closure only exists once the flag
    has been allocated, so the [None] case is never reached by a poll. *)
Definition load (w : world) : bool :=
  match flag w with Some b => b | None => false end.

(** The closure passed to [poll_fn] (lines 40-51):
    [if flag.load(SeqCst) { println!("work done! ..."); Poll::Ready(()) }
     else { lw.wake(); Poll::Pending }]. *)
Definition poll_closure (x : Z) (tid : ThreadId) (w : world) : world * poll :=
  if load w then (emit w [Println_done x tid], Ready)
  else (emit w [Wake], Pending).

(** [await!(poll_fn(..))] inside the generated future: poll the inner
    future once; on [Ready] the async body finishes and the future is
    [Returned], on [Pending] it stays suspended at the await. *)
Definition await_poll_fn (x : Z) (tid : ThreadId) (w : world) : world * poll :=
  let (w', r) := poll_closure x tid w in
  match r with
  | Ready => (set_fut w' Returned, Ready)
  | _ => (w', r)
  end.

(** [Future::poll] of the future returned by [do_work_async x].  The first
    poll runs the body up to the await: the [println!] (line 25),
    [Arc::new(AtomicBool::new(false))] (line 28), [thread::spawn] (line 32),
    and then the first poll of the [poll_fn] future. *)
Definition poll_task (tid : ThreadId) (w : world) : world * poll :=
  match fut w with
  | Unresumed x =>
      let w1 := mk_world (Suspended x) (Some false) (Some timeout_thread_body)
                         (out w ++ [Println_start x tid; Spawn]) in
      await_poll_fn x tid w1
  | Suspended x => await_poll_fn x tid w
  | Returned => (w, Panicked)
  end.

(** One step of the timeout thread, if it has been spawned and has not
    finished. *)
Definition timer_step (w : world) : world :=
  match timer w with
  | Some (ISleep ms :: rest) =>
      mk_world (fut w) (flag w) (Some rest) (out w ++ [Slept ms])
  | Some (IStore b :: rest) =>
      mk_world (fut w) (Some b) (Some rest) (out w ++ [Store b])
  | _ => w
  end.

Inductive event :=
| EPoll (tid : ThreadId)   (* the executor polls the task from thread tid *)
| ETimer.                  (* the timeout thread runs its next statement *)

Definition step (w : world) (e : event) : world :=
  match e with
  | EPoll tid => let (w', r) := poll_task tid w in emit w' [Polled r]
  | ETimer => timer_step w
  end.

Definition run (w : world) (evs : list event) : world := fold_left step evs w.

(** [do_work_async(x)]: calling an async fn only builds its future. *)
Definition do_work_async (x : Z) : world := mk_world (Unresumed x) None None [].

(** An executor that never polls the future again once it returned
    [Ready] (the [Future] contract honoured by [block_on] and [join!]). *)
Fixpoint conforming (w : world) (evs : list event) : bool :=
  match evs with
  | [] => true
  | e :: es =>
      match e, fut w with
      | EPoll _, Returned => false
      | _, _ => conforming (step w e) es
      end
  end.

(** Classifiers and counters over the output. *)
Definition is_diag (e : effect) : bool :=
  match e with Println_start _ _ | Println_done _ _ => true | _ => false end.
Definition is_start (e : effect) : bool :=
  match e with Println_start _ _ => true | _ => false end.
Definition is_done (e : effect) : bool :=
  match e with Println_done _ _ => true | _ => false end.
Definition is_spawn (e : effect) : bool :=
  match e with Spawn => true | _ => false end.
Definition is_wake (e : effect) : bool :=
  match e with Wake => true | _ => false end.
Definition is_store (e : effect) : bool :=
  match e with Store _ => true | _ => false end.
Definition is_store_false (e : effect) : bool :=
  match e with Store false => true | _ => false end.

Definition diags (l : list effect) : list effect := filter is_diag l.
Definition count (p : effect -> bool) (l : list effect) : nat := length (filter p l).

(** Labels erased: every [x] replaced by [0]. *)
Definition erase_effect (e : effect) : effect :=
  match e with
  | Println_start _ t => Println_start 0 t
  | Println_done _ t => Println_done 0 t
  | e => e
  end.

Definition erase_fut (f : fut_state) : fut_state :=
  match f with
  | Unresumed _ => Unresumed 0
  | Suspended _ => Suspended 0
  | Returned => Returned
  end.

Definition erase (w : world) : world :=
  mk_world (erase_fut (fut w)) (flag w) (timer w) (map erase_effect (out w)).

(** [n] successive calls of the [poll_fn] closure alone, on one thread. *)
Fixpoint poll_closure_n (n : nat) (x : Z) (tid : ThreadId) (w : world)
  : world * list poll :=
  match n with
  | 0 => (w, [])
  | S n' =>
      let (w1, r) := poll_closure x tid w in
      let (w2, rs) := poll_closure_n n' x tid w1 in
      (w2, r :: rs)
  end.

(** Invariant of every state reachable from [do_work_async x]. *)
Definition inv (x : Z) (w : world) : Prop :=
  match fut w, flag w, timer w with
  | Unresumed x', None, None => x' = x /\ out w = []
  | Suspended x', Some false, Some t =>
      x' = x /\ (t = timeout_thread_body \/ t = [IStore true]) /\
      (exists t0, diags (out w) = [Println_start x t0]) /\
      count is_spawn (out w) = 1 /\ count is_store (out w) = 0
  | Suspended x', Some true, Some [] =>
      x' = x /\ (exists t0, diags (out w) = [Println_start x t0]) /\
      count is_spawn (out w) = 1 /\ count is_store (out w) = 1 /\
      count is_store_false (out w) = 0
  | Returned, Some true, Some [] =>
      (exists t0 t1, diags (out w) = [Println_start x t0; Println_done x t1]) /\
      count is_spawn (out w) = 1 /\ count is_store (out w) = 1 /\
      count is_store_false (out w) = 0
  | _, _, _ => False
  end.

End Work.

(** * The drivers of src/examples/small/src/main.rs and the sequential
    [do_work] of work.rs. *)
Module MainRs.
Import Work.

(** [do_work(x)] (work.rs, lines 55-59), run on thread [tid]: print, block
    the thread for 500 ms, print. *)
Definition do_work (x : Z) (tid : ThreadId) : list effect :=
  [Println_start x tid; Slept 500; Println_done x tid].

(** [sequential()] (lines 15-20), run on thread [tid]. *)
Definition sequential (tid : ThreadId) : list effect :=
  do_work 1 tid ++ do_work 2 tid ++ do_work 3 tid ++ do_work 4 tid.


Fixpoint nth_update {A} (i : nat) (f : A -> A) (l : list A) : list A :=
  match l, i with
  | [], _ => []
  | a :: l', 0 => f a :: l'
  | a :: l', S i' => a :: nth_update i' f l'
  end.



(** [async fn async_seq()] (lines 34-39): four [await!]s in a row.  The
    body creates [do_work_async(k)] only when it reaches the k-th await;
    [SeqAt fin cur todo] is suspended at the await on [cur], with the
    completed futures [fin] and the labels [todo] still to come. *)
Inductive seq_state :=
| SeqAt (fin : list world) (cur : world) (todo : list Z)
| SeqReturned (fin : list world).

(** The future returned by [async_seq()]: its body does nothing before
    the first await, so it starts at the await on [do_work_async(1)]. *)
Definition async_seq : seq_state := SeqAt [] (do_work_async 1) [2; 3; 4]%Z.

(** One poll of [async_seq]: poll the awaited future; when it is ready,
    the body moves on to the next await within the same poll. *)
Fixpoint seq_go (tid : ThreadId) (fin : list world) (cur : world) (todo : list Z)
  : seq_state * poll :=
  let (cur', r) := poll_task tid cur in
  match r with
  | Ready =>
      match todo with
      | [] => (SeqReturned (fin ++ [cur']), Ready)
      | y :: todo' => seq_go tid (fin ++ [cur']) (do_work_async y) todo'
      end
  | _ => (SeqAt fin cur' todo, r)
  end.

Definition seq_poll (tid : ThreadId) (s : seq_state) : seq_state * poll :=
  match s with
  | SeqAt fin cur todo => seq_go tid fin cur todo
  | SeqReturned _ => (s, Panicked)
  end.

(** Events: a poll of the whole future, or a step of the timeout thread of
    the i-th task created so far (index into [fin ++ [cur]]). *)
Inductive sevent :=
| SPoll (tid : ThreadId)
| STimer (i : nat).

Definition seq_step (s : seq_state) (e : sevent) : seq_state :=
  match e, s with
  | SPoll tid, _ => fst (seq_poll tid s)
  | STimer i, SeqAt fin cur todo =>
      if Nat.ltb i (length fin) then SeqAt (nth_update i timer_step fin) cur todo
      else if Nat.eqb i (length fin) then SeqAt fin (timer_step cur) todo
      else s
  | STimer i, SeqReturned fin => SeqReturned (nth_update i timer_step fin)
  end.

Definition seq_run (s : seq_state) (evs : list sevent) : seq_state :=
  fold_left seq_step evs s.

(** [join!(f1, f2, f3, f4)] of futures 0.3: each future sits in a
    [MaybeDone]; every poll of the join polls the futures that are not done
    yet, in order, and a future that returned [Ready] is kept as done and
    never polled again.  The join is ready when all are done. *)
Inductive maybe_done :=
| MDFuture (w : world)
| MDDone (w : world).

Definition md_world (m : maybe_done) : world :=
  match m with MDFuture w | MDDone w => w end.

Fixpoint join_poll (tid : ThreadId) (l : list maybe_done) : list maybe_done * bool :=
  match l with
  | [] => ([], true)
  | MDFuture w :: l' =>
      let (w', r) := poll_task tid w in
      let m := match r with Ready => MDDone w' | _ => MDFuture w' end in
      let (l'', d) := join_poll tid l' in
      (m :: l'', match r with Ready => d | _ => false end)
  | MDDone w :: l' =>
      let (l'', d) := join_poll tid l' in (MDDone w :: l'', d)
  end.

(** [async fn async_concurrent()] (lines 41-47): the four calls only build
    futures; the body then awaits the join. *)
Inductive conc_state :=
| ConcAt (l : list maybe_done)
| ConcReturned (ws : list world).

Definition join_of (xs : list Z) : conc_state :=
  ConcAt (map (fun x => MDFuture (do_work_async x)) xs).

Definition async_concurrent : conc_state := join_of [1; 2; 3; 4]%Z.

Definition conc_poll (tid : ThreadId) (s : conc_state) : conc_state * poll :=
  match s with
  | ConcAt l =>
      let (l', d) := join_poll tid l in
      if d then (ConcReturned (map md_world l'), Ready) else (ConcAt l', Pending)
  | ConcReturned _ => (s, Panicked)
  end.

Inductive cevent :=
| CPoll (tid : ThreadId)
| CTimer (i : nat).

Definition md_map (f : world -> world) (m : maybe_done) : maybe_done :=
  match m with MDFuture w => MDFuture (f w) | MDDone w => MDDone (f w) end.

Definition conc_step (s : conc_state) (e : cevent) : conc_state :=
  match e, s with
  | CPoll tid, _ => fst (conc_poll tid s)
  | CTimer i, ConcAt l => ConcAt (nth_update i (md_map timer_step) l)
  | CTimer i, ConcReturned ws => ConcReturned (nth_update i timer_step ws)
  end.

Definition conc_run (s : conc_state) (evs : list cevent) : conc_state :=
  fold_left conc_step evs s.

(** A task that has run to completion, as a reachable state of label [x]. *)
Definition finished (x : Z) (w : world) : Prop := fut w = Returned /\ inv x w.

(** Invariant of [async_seq] over its labels [L]: the tasks created so far
    are those of a prefix of [L]; all but the awaited one have finished,
    and the labels after the awaited one are still to come. *)
Definition seq_inv (L : list Z) (s : seq_state) : Prop :=
  match s with
  | SeqAt fin cur todo =>
      exists dl x, L = dl ++ x :: todo /\ Forall2 finished dl fin /\ inv x cur /\
                   fut cur <> Returned
  | SeqReturned fin => Forall2 finished L fin
  end.

(** Invariant of [join!] over its labels [L]: every task is in a reachable
    state of its label, and it is kept as done exactly when it returned. *)
Definition md_ok (x : Z) (m : maybe_done) : Prop :=
  inv x (md_world m) /\
  match m with
  | MDDone w => fut w = Returned
  | MDFuture w => fut w <> Returned
  end.

Definition conc_inv (L : list Z) (s : conc_state) : Prop :=
  match s with
  | ConcAt l => Forall2 md_ok L l
  | ConcReturned ws => Forall2 finished L ws
  end.

(** Every printed line of [o] names thread [t]. *)
Definition tids_ok (t : ThreadId) (o : list effect) : Prop :=
  Forall (fun e => match e with
                   | Println_start _ t' | Println_done _ t' => t' = t
                   | _ => True
                   end) o.

Definition polls_from (t : ThreadId) (evs : list event) : bool :=
  forallb (fun e => match e with EPoll t' => Nat.eqb t' t | ETimer => true end) evs.

Definition spolls_from (t : ThreadId) (evs : list sevent) : bool :=
  forallb (fun e => match e with SPoll t' => Nat.eqb t' t | STimer _ => true end) evs.

(** Timeout threads spawned and not yet finished. *)
Definition running (w : world) : bool :=
  match timer w with Some (_ :: _) => true | _ => false end.

Definition seq_worlds (s : seq_state) : list world :=
  match s with SeqAt fin cur _ => fin ++ [cur] | SeqReturned fin => fin end.

(** Every world of [async_seq] prints only lines naming thread [t]. *)
Definition seq_tids (t : ThreadId) (s : seq_state) : Prop :=
  Forall (fun w => tids_ok t (out w)) (seq_worlds s).


End MainRs.

(** * The echo server of src/examples/echo/src/main.rs. *)
Module Echo.

(** What one [stream.read_async(&mut buf)] returns: [Ok(n)] together with
    the [n] bytes it wrote at the front of [buf], or an I/O error. *)
Inductive read_res :=
| RdOk (data : list Byte.byte)
| RdErr.

(** What one [stream.write_all_async(..)] returns: [Ok(())], or an error
    after [k] bytes of the slice reached the peer. *)
Inductive write_res :=
| WrOk
| WrErr (k : nat).

Inductive outcome :=
| Finished        (* the async fn returned *)
| Panic           (* an [.unwrap()] (or a slice index) panicked *)
| Blocked.        (* waiting on I/O that never completes *)

(** [let mut buf = [0; 1024];] *)
Definition buf0 : list Byte.byte := repeat Byte.x00 1024.

(** The loop of [handle] (lines 14-22), with the bytes sent so far. *)
Fixpoint handle_loop (buf : list Byte.byte) (reads : list read_res)
    (writes : list write_res) (sent : list Byte.byte) : list Byte.byte * outcome :=
  match reads with
  | [] => (sent, Blocked)
  | RdErr :: _ => (sent, Panic)
  | RdOk data :: reads' =>
      let n := length data in
      let buf' := data ++ skipn n buf in
      match n with
      | 0 => (sent, Finished)                         (* 0 => break *)
      | _ =>
          if Nat.leb n (length buf) then
            match writes with
            | [] => (sent, Blocked)
            | WrOk :: writes' => handle_loop buf' reads' writes' (sent ++ firstn n buf')
            | WrErr k :: _ => (sent ++ firstn (Nat.min k n) buf', Panic)
            end
          else (sent, Panic)                          (* &buf[0..n] out of range *)
      end
  end.

(** [async fn handle(stream)]: the reads and writes the stream answers, and
    the bytes echoed back. *)
Definition handle (reads : list read_res) (writes : list write_res)
  : list Byte.byte * outcome :=
  handle_loop buf0 reads writes [].

(** What [incoming.next()] yields: an accepted stream or an accept error;
    the end of the list is [None], the end of the stream. *)
Inductive accept :=
| AcOk (s : nat)
| AcErr.

(** The loop of [listen] (lines 30-33): the streams handed to
    [tokio::spawn_async(handle(stream))], in order. *)
Fixpoint listen_loop (inc : list accept) : list nat * outcome :=
  match inc with
  | [] => ([], Finished)
  | AcErr :: _ => ([], Panic)                           (* stream.unwrap() *)
  | AcOk s :: inc' => let (sp, o) := listen_loop inc' in (s :: sp, o)
  end.

(** [async fn listen(addr)]: [TcpListener::bind(&addr).unwrap()], then the
    accept loop. *)
Definition listen (bind_ok : bool) (inc : list accept) : list nat * outcome :=
  if bind_ok then listen_loop inc else ([], Panic).

(** A chunk a successful, non-final read can return into [buf]. *)
Definition chunk_ok (c : list Byte.byte) : Prop := c <> [] /\ length c <= 1024.

End Echo.

Module WorkFacts.
Import Work.

Lemma diags_app l l' : diags (l ++ l') = diags l ++ diags l'.
Proof. unfold diags. apply filter_app. Qed.

Lemma count_app p l l' : count p (l ++ l') = count p l + count p l'.
Proof. unfold count. rewrite filter_app, length_app. reflexivity. Qed.

Lemma count_nil p : count p [] = 0.
Proof. reflexivity. Qed.

Lemma store_false_le o :
  length (filter is_store_false o) <= length (filter is_store o).
Proof.
  induction o as [|[] o IH]; simpl; try lia.
  destruct b; simpl; lia.
Qed.

Lemma inv_init x : inv x (do_work_async x).
Proof. unfold inv; simpl. auto. Qed.

Ltac norm_out := unfold count, diags in *; rewrite ?filter_app, ?length_app.

Lemma inv_step x w e : inv x w -> inv x (step w e).
Proof.
  destruct w as [f fl tm o]; unfold inv; simpl.
  destruct f as [x'|x'|], fl as [[|]|], tm as [[|i tm]|]; try tauto.
  - (* Unresumed: the first poll runs the body up to the await *)
    intros [-> ->]. destruct e as [tid|]; cbn; [|auto].
    repeat split; eauto.
  - (* Suspended, flag set, timer finished *)
    intros (-> & [t0 Hd] & Hs & Hst & Hsf).
    destruct e as [tid|]; cbn; norm_out; rewrite ?Hd, ?Hs, ?Hst, ?Hsf; simpl.
    + repeat split; eauto.
    + repeat split; eauto.
  - intros (_ & [H|H] & _); discriminate.
  - (* Suspended, flag clear, timer still running *)
    intros (-> & Htm & [t0 Hd] & Hs & Hst).
    destruct Htm as [Htm | Htm]; inversion Htm; subst; clear Htm;
      destruct e as [tid|]; cbn; norm_out; rewrite ?Hd, ?Hs, ?Hst; simpl;
      repeat split; eauto; pose proof (store_false_le o); lia.
  - (* Returned *)
    intros ([t0 [t1 Hd]] & Hs & Hst & Hsf).
    destruct e as [tid|]; cbn; norm_out; rewrite ?Hd, ?Hs, ?Hst, ?Hsf; simpl;
      repeat split; eauto.
Qed.

Lemma inv_run x w evs : inv x w -> inv x (run w evs).
Proof.
  revert w; induction evs as [|e evs IH]; intros w H; simpl; auto.
  apply IH, inv_step, H.
Qed.

Lemma inv_reach x evs : inv x (run (do_work_async x) evs).
Proof. apply inv_run, inv_init. Qed.

Lemma run_app w evs evs' : run w (evs ++ evs') = run (run w evs) evs'.
Proof. unfold run. apply fold_left_app. Qed.

Lemma flag_true_step x w e :
  inv x w -> flag w = Some true -> flag (step w e) = Some true.
Proof.
  destruct w as [f fl tm o]; unfold inv; simpl.
  intros Hi ->.
  destruct f as [x'|x'|], tm as [[|i tm]|]; try contradiction;
    destruct e; reflexivity.
Qed.

Lemma flag_true_run x w evs :
  inv x w -> flag w = Some true -> flag (run w evs) = Some true.
Proof.
  revert w; induction evs as [|e evs IH]; intros w Hi Hf; simpl; auto.
  apply IH; [apply inv_step, Hi | eapply flag_true_step; eauto].
Qed.

Lemma filter_start_diags o :
  filter is_start (diags o) = filter is_start o.
Proof.
  unfold diags; induction o as [|[] o IH]; simpl; rewrite ?IH; reflexivity.
Qed.

Lemma erase_step w e : erase (step w e) = step (erase w) e.
Proof.
  destruct w as [f fl tm o]; unfold erase; destruct e as [tid|]; simpl.
  - destruct f as [x'|x'|]; cbn; rewrite ?map_app; [reflexivity| |reflexivity].
    unfold load; simpl; destruct fl as [[|]|]; cbn; rewrite ?map_app; reflexivity.
  - unfold timer_step; simpl.
    destruct tm as [[|[ms|b] tm]|]; simpl; rewrite ?map_app; reflexivity.
Qed.

Lemma erase_run w evs : erase (run w evs) = run (erase w) evs.
Proof.
  revert w; induction evs as [|e evs IH]; intros w; simpl; auto.
  rewrite IH, erase_step. reflexivity.
Qed.

Lemma conforming_erase w evs : conforming w evs = conforming (erase w) evs.
Proof.
  revert w; induction evs as [|e evs IH]; intros w; simpl; auto.
  rewrite IH, erase_step.
  destruct e, w as [[] fl tm o]; reflexivity.
Qed.

Lemma inv_counts x w :
  inv x w ->
  count is_store_false (out w) = 0 /\ count is_store (out w) <= 1 /\
  count is_start (out w) <= 1 /\ count is_spawn (out w) <= 1.
Proof.
  destruct w as [f fl tm o]; unfold inv; simpl.
  pose proof (store_false_le o) as Hle.
  pose proof (filter_start_diags o) as Hsd.
  unfold count in *.
  destruct f as [x'|x'|], fl as [[|]|], tm as [[|i tm]|]; try tauto.
  - intros [_ ->]. simpl. lia.
  - intros (_ & [t0 Hd] & Hs & Hst & Hsf).
    rewrite <- Hsd, Hd. simpl. lia.
  - intros (_ & _ & [t0 Hd] & Hs & Hst).
    rewrite <- Hsd, Hd. simpl. lia.
  - intros (_ & _ & [t0 Hd] & Hs & Hst).
    rewrite <- Hsd, Hd. simpl. lia.
  - intros ([t0 [t1 Hd]] & Hs & Hst & Hsf).
    rewrite <- Hsd, Hd. simpl. lia.
Qed.

End WorkFacts.

Module Claims.
Import Work WorkFacts.

(** C1: a poll of the suspended task that loads [true] from the flag
    prints "work done!" with the label and the polling thread's id, returns
    [Poll::Ready(())] and completes the future. *)
Theorem poll_flag_true_ready x tid w :
  fut w = Suspended x -> flag w = Some true ->
  poll_task tid w =
    (mk_world Returned (Some true) (timer w) (out w ++ [Println_done x tid]),
     Ready).
Proof.
  destruct w as [f fl tm o]; simpl; intros -> ->. reflexivity.
Qed.

Lemma poll_flag_true_ready_witness :
  fut (run (do_work_async 7) [EPoll 0; ETimer; ETimer]) = Suspended 7 /\
  flag (run (do_work_async 7) [EPoll 0; ETimer; ETimer]) = Some true /\
  poll_task 3 (run (do_work_async 7) [EPoll 0; ETimer; ETimer]) =
    (mk_world Returned (Some true)
       (timer (run (do_work_async 7) [EPoll 0; ETimer; ETimer]))
       (out (run (do_work_async 7) [EPoll 0; ETimer; ETimer])
          ++ [Println_done 7 3]),
     Ready).
Proof.
  split; [reflexivity|]. split; [reflexivity|].
  apply poll_flag_true_ready; reflexivity.
Defined.

(** C2: a poll whose load of the flag yields [false] (the first poll, which
    has just allocated the flag as [false], or a later poll while the flag
    is still [false]) calls [lw.wake()] exactly once and returns
    [Poll::Pending]; the task stays suspended. *)
Theorem poll_flag_false_wakes x tid w :
  fut w = Unresumed x \/ (fut w = Suspended x /\ flag w = Some false) ->
  snd (poll_task tid w) = Pending /\
  fut (fst (poll_task tid w)) = Suspended x /\
  flag (fst (poll_task tid w)) = Some false /\
  exists delta, out (fst (poll_task tid w)) = out w ++ delta /\
                count is_wake delta = 1 /\ last delta Spawn = Wake.
Proof.
  destruct w as [f fl tm o]; simpl.
  intros [-> | [-> ->]]; cbn.
  - repeat split. exists [Println_start x tid; Spawn; Wake].
    rewrite <- app_assoc. repeat split.
  - repeat split. exists [Wake]. repeat split.
Qed.

Lemma poll_flag_false_wakes_witness :
  (fut (run (do_work_async 7) [EPoll 0; ETimer]) = Unresumed 7 \/
   (fut (run (do_work_async 7) [EPoll 0; ETimer]) = Suspended 7 /\
    flag (run (do_work_async 7) [EPoll 0; ETimer]) = Some false)) /\
  snd (poll_task 1 (run (do_work_async 7) [EPoll 0; ETimer])) = Pending.
Proof.
  assert (H : fut (run (do_work_async 7) [EPoll 0; ETimer]) = Unresumed 7 \/
   (fut (run (do_work_async 7) [EPoll 0; ETimer]) = Suspended 7 /\
    flag (run (do_work_async 7) [EPoll 0; ETimer]) = Some false))
    by (right; split; reflexivity).
  split; [exact H|].
  exact (proj1 (poll_flag_false_wakes 7 1 _ H)).
Defined.

(** C3: the flag is only ever stored [true], at most once, and once it
    reads [true] it reads [true] in every later state of the run. *)
Theorem flag_monotone x evs :
  count is_store_false (out (run (do_work_async x) evs)) = 0 /\
  count is_store (out (run (do_work_async x) evs)) <= 1 /\
  (forall evs', flag (run (do_work_async x) evs) = Some true ->
                flag (run (do_work_async x) (evs ++ evs')) = Some true).
Proof.
  destruct (inv_counts x _ (inv_reach x evs)) as (H1 & H2 & _).
  split; [exact H1|]. split; [exact H2|].
  intros evs' Hf. rewrite run_app. eapply flag_true_run; eauto using inv_reach.
Qed.

(** C4 (as stated): calling [do_work_async 7] only builds the future; no
    line is printed, no flag is allocated and no thread is spawned. *)
Lemma creation_does_nothing :
  out (do_work_async 7) = [] /\ flag (do_work_async 7) = None /\
  timer (do_work_async 7) = None.
Proof. repeat split. Qed.

(** C4 (amended): the first poll of [do_work_async x] prints one start line
    with [x] and the polling thread's id, allocates the flag as [false] and
    spawns the timeout thread, whose body sleeps 500 ms and then stores
    [true]; over any run there is at most one start line, one spawn and one
    store. *)
Theorem first_poll_starts x tid :
  poll_task tid (do_work_async x) =
    (mk_world (Suspended x) (Some false) (Some [ISleep 500; IStore true])
       [Println_start x tid; Spawn; Wake], Pending) /\
  forall evs,
    count is_start (out (run (do_work_async x) evs)) <= 1 /\
    count is_spawn (out (run (do_work_async x) evs)) <= 1 /\
    count is_store (out (run (do_work_async x) evs)) <= 1 /\
    count is_store_false (out (run (do_work_async x) evs)) = 0.
Proof.
  split; [reflexivity|].
  intros evs. destruct (inv_counts x _ (inv_reach x evs)) as (H1 & H2 & H3 & H4).
  auto.
Qed.

(** C5: under an executor that stops polling at the first [Ready], the
    diagnostics of every run are empty, one start line, or one start line
    followed by one done line; and a poll issued after the timeout thread
    finished produces exactly the start line then the done line. *)
Theorem start_then_done_once x evs :
  conforming (do_work_async x) evs = true ->
  (diags (out (run (do_work_async x) evs)) = [] \/
   (exists t0, diags (out (run (do_work_async x) evs)) = [Println_start x t0]) \/
   (exists t0 t1, diags (out (run (do_work_async x) evs)) =
                  [Println_start x t0; Println_done x t1])) /\
  (forall tid,
     conforming (do_work_async x) (evs ++ [EPoll tid]) = true ->
     timer (run (do_work_async x) evs) = Some [] ->
     exists t0, diags (out (run (do_work_async x) (evs ++ [EPoll tid]))) =
                [Println_start x t0; Println_done x tid]).
Proof.
  intros _. pose proof (inv_reach x evs) as Hi.
  split.
  - remember (run (do_work_async x) evs) as w; clear Heqw.
    destruct w as [f fl tm o]; unfold inv in Hi; simpl in *.
    destruct f, fl as [[|]|], tm as [[|i tm]|]; try tauto.
    destruct Hi as [_ ->]. left; reflexivity.
  - intros tid Hc Ht.
    assert (Hc' : conforming (run (do_work_async x) evs) [EPoll tid] = true).
    { clear Ht Hi. revert Hc. generalize (do_work_async x) as w.
      induction evs as [|e evs IH]; intros w Hc; simpl in *; [exact Hc|].
      destruct e, (fut w); auto; discriminate. }
    rewrite run_app.
    remember (run (do_work_async x) evs) as w; clear Heqw.
    destruct w as [f fl tm o]; unfold inv in Hi; simpl in *; subst tm.
    destruct f, fl as [[|]|]; try tauto; try discriminate.
    2: destruct Hi as (_ & [H|H] & _); discriminate.
    destruct Hi as (-> & [t0 Hd] & _).
    exists t0. unfold diags in *. cbn. rewrite !filter_app, Hd. reflexivity.
Qed.

Lemma start_then_done_once_witness :
  conforming (do_work_async 7) [EPoll 0; ETimer; ETimer] = true /\
  exists t0, diags (out (run (do_work_async 7) ([EPoll 0; ETimer; ETimer] ++ [EPoll 2]))) =
             [Println_start 7 t0; Println_done 7 2].
Proof.
  split; [reflexivity|].
  apply (proj2 (start_then_done_once 7 [EPoll 0; ETimer; ETimer] eq_refl) 2);
    reflexivity.
Defined.

(** C6 (as stated): after the poll that returned [Ready], polling the
    future of [do_work_async 7] again panics. *)
Lemma repoll_after_ready_panics :
  snd (poll_task 0 (run (do_work_async 7) [EPoll 0; ETimer; ETimer])) = Ready /\
  snd (poll_task 0 (run (do_work_async 7) [EPoll 0; ETimer; ETimer; EPoll 0]))
    = Panicked.
Proof. split; reflexivity. Qed.

(** C6 (amended): once the flag is set, the next poll of the unfinished
    task returns [Ready], printing one done line, and completes the future;
    a further poll of the completed future panics and prints nothing. *)
Theorem ready_once_then_panics x evs tid tid' :
  flag (run (do_work_async x) evs) = Some true ->
  fut (run (do_work_async x) evs) <> Returned ->
  exists w1,
    poll_task tid (run (do_work_async x) evs) = (w1, Ready) /\
    fut w1 = Returned /\
    out w1 = out (run (do_work_async x) evs) ++ [Println_done x tid] /\
    poll_task tid' w1 = (w1, Panicked).
Proof.
  pose proof (inv_reach x evs) as Hi.
  remember (run (do_work_async x) evs) as w; clear Heqw.
  destruct w as [f fl tm o]; unfold inv in Hi; simpl in *.
  intros -> Hr.
  destruct f as [x'|x'|]; [tauto| |congruence].
  destruct tm as [[|i tm]|]; try tauto.
  destruct Hi as (-> & _).
  eexists; repeat split.
Qed.

Lemma ready_once_then_panics_witness :
  flag (run (do_work_async 7) [EPoll 0; ETimer; ETimer]) = Some true /\
  fut (run (do_work_async 7) [EPoll 0; ETimer; ETimer]) <> Returned /\
  exists w1,
    poll_task 1 (run (do_work_async 7) [EPoll 0; ETimer; ETimer]) = (w1, Ready) /\
    poll_task 2 w1 = (w1, Panicked).
Proof.
  split; [reflexivity|]. split; [discriminate|].
  destruct (ready_once_then_panics 7 [EPoll 0; ETimer; ETimer] 1 2 eq_refl
              ltac:(discriminate)) as (w1 & H1 & _ & _ & H2).
  exists w1. split; assumption.
Defined.

(** C7: the label only reaches the printed lines: two tasks with labels
    [x1] and [x2] driven by the same events have the same future state up
    to the label, the same flag, the same timeout thread, the same output
    once labels are erased (poll results, wake-ups, sleep, store), and the
    same conformance. *)
Theorem label_only_in_diagnostics x1 x2 evs :
  erase_fut (fut (run (do_work_async x1) evs)) =
    erase_fut (fut (run (do_work_async x2) evs)) /\
  flag (run (do_work_async x1) evs) = flag (run (do_work_async x2) evs) /\
  timer (run (do_work_async x1) evs) = timer (run (do_work_async x2) evs) /\
  map erase_effect (out (run (do_work_async x1) evs)) =
    map erase_effect (out (run (do_work_async x2) evs)) /\
  conforming (do_work_async x1) evs = conforming (do_work_async x2) evs.
Proof.
  assert (He : erase (run (do_work_async x1) evs) =
               erase (run (do_work_async x2) evs)).
  { rewrite !erase_run. reflexivity. }
  unfold erase in He. injection He as H1 H2 H3 H4.
  repeat split; auto.
  rewrite (conforming_erase (do_work_async x1)),
          (conforming_erase (do_work_async x2)).
  reflexivity.
Qed.

(** C9: the [poll_fn] closure keeps no state of its own: while the flag
    holds [true], each of [n] calls returns [Ready] and prints the done
    line again; and any two worlds with the same flag value get the same
    result and the same output from one call. *)
Theorem closure_stateless n x tid w :
  flag w = Some true ->
  poll_closure_n n x tid w = (emit w (repeat (Println_done x tid) n), repeat Ready n) /\
  (forall w', load w' = load w ->
     snd (poll_closure x tid w') = snd (poll_closure x tid w) /\
     out (fst (poll_closure x tid w')) = out w' ++ [Println_done x tid]).
Proof.
  intros Hf. split.
  - revert w Hf; induction n as [|n IH]; intros w Hf; simpl.
    + destruct w; unfold emit; simpl; rewrite app_nil_r; reflexivity.
    + unfold poll_closure at 1, load at 1; rewrite Hf.
      rewrite IH by (simpl; exact Hf).
      unfold emit; simpl; rewrite <- app_assoc; reflexivity.
  - intros w' Hl. unfold poll_closure. rewrite Hl. unfold load. rewrite Hf.
    split; reflexivity.
Qed.

Lemma closure_stateless_witness :
  flag (run (do_work_async 7) [EPoll 0; ETimer; ETimer]) = Some true /\
  snd (poll_closure_n 3 7 0 (run (do_work_async 7) [EPoll 0; ETimer; ETimer])) =
    [Ready; Ready; Ready].
Proof.
  split; [reflexivity|].
  rewrite (proj1 (closure_stateless 3 7 0
    (run (do_work_async 7) [EPoll 0; ETimer; ETimer]) eq_refl)).
  reflexivity.
Defined.

(** C10: a poll calls [lw.wake()] exactly when it returns [Pending], and it
    returns [Pending] exactly when its load of the flag yields [false];
    a poll returning [Ready] never wakes. *)
Theorem wake_iff_pending tid w :
  (exists delta,
     out (fst (poll_task tid w)) = out w ++ delta /\
     count is_wake delta =
       match snd (poll_task tid w) with Pending => 1 | _ => 0 end) /\
  (snd (poll_task tid w) = Pending <->
     match fut w with
     | Unresumed _ => True
     | Suspended _ => load w = false
     | Returned => False
     end).
Proof.
  destruct w as [f fl tm o]; unfold poll_task; simpl.
  destruct f as [x|x|]; cbn.
  - split; [|tauto]. eexists; split; [rewrite <- app_assoc; reflexivity|]. reflexivity.
  - unfold await_poll_fn, poll_closure, load; simpl.
    destruct fl as [[|]|]; cbn.
    + split; [|split; discriminate]. eexists; split; reflexivity.
    + split; [|tauto]. eexists; split; reflexivity.
    + split; [|tauto]. eexists; split; reflexivity.
  - split; [|split; [discriminate|tauto]]. exists []. rewrite app_nil_r. split; reflexivity.
Qed.

End Claims.

Module MainFacts.
Import Work WorkFacts MainRs.

Lemma inv_poll x w tid : inv x w -> inv x (fst (poll_task tid w)).
Proof.
  destruct w as [f fl tm o]; unfold inv; simpl.
  destruct f as [x'|x'|], fl as [[|]|], tm as [[|i tm]|]; try tauto.
  - intros [-> ->]. cbn. repeat split; eauto.
  - intros (-> & [t0 Hd] & Hs & Hst & Hsf).
    cbn; norm_out; rewrite ?Hd, ?Hs, ?Hst, ?Hsf; simpl; repeat split; eauto.
  - intros (_ & [H|H] & _); discriminate.
  - intros (-> & Htm & [t0 Hd] & Hs & Hst).
    cbn; norm_out; rewrite ?Hd, ?Hs, ?Hst; simpl; repeat split; eauto.
  - intros H; exact H.
Qed.

Lemma inv_timer x w : inv x w -> inv x (timer_step w).
Proof. apply (inv_step x w ETimer). Qed.

Lemma timer_step_fut w : fut (timer_step w) = fut w.
Proof.
  destruct w as [f fl [[|[] ?]|] o]; reflexivity.
Qed.

Lemma finished_timer_done x w : finished x w -> timer w = Some [].
Proof.
  destruct w as [f fl tm o]; unfold finished, inv; simpl.
  intros [-> Hi]. destruct fl as [[|]|], tm as [[|i tm]|]; tauto.
Qed.

Lemma finished_timer_step x w : finished x w -> timer_step w = w.
Proof.
  intros H. unfold timer_step. rewrite (finished_timer_done x w H). reflexivity.
Qed.

Lemma poll_ready_returned tid w w' :
  poll_task tid w = (w', Ready) -> fut w' = Returned.
Proof.
  destruct w as [[x|x|] fl tm o]; cbn;
    unfold await_poll_fn, poll_closure, load; simpl;
    try destruct fl as [[|]|]; cbn; intros H; inversion H; reflexivity.
Qed.

Lemma poll_pending_fut tid w w' :
  poll_task tid w = (w', Pending) -> fut w' <> Returned.
Proof.
  destruct w as [[x|x|] fl tm o]; cbn;
    unfold await_poll_fn, poll_closure, load; simpl;
    try destruct fl as [[|]|]; cbn; intros H; inversion H; subst;
    try discriminate; congruence.
Qed.

Lemma poll_panicked_returned tid w w' :
  poll_task tid w = (w', Panicked) -> fut w = Returned.
Proof.
  destruct w as [[x|x|] fl tm o]; cbn;
    unfold await_poll_fn, poll_closure, load; simpl;
    try destruct fl as [[|]|]; cbn; intros H; inversion H; reflexivity.
Qed.

Lemma Forall2_nth_update {A B} (R : A -> B -> Prop) f i L l :
  Forall2 R L l -> (forall x a, R x a -> R x (f a)) ->
  Forall2 R L (nth_update i f l).
Proof.
  intros H Hf; revert i; induction H as [|x a L l Hxa H IH]; intros [|i]; simpl;
    constructor; auto.
Qed.

Lemma Forall2_nth_update_id {A B} (R : A -> B -> Prop) f i L l :
  Forall2 R L l -> (forall x a, R x a -> f a = a) -> nth_update i f l = l.
Proof.
  intros H Hf; revert i; induction H as [|x a L l Hxa H IH]; intros [|i]; simpl;
    rewrite ?(Hf x a Hxa), ?IH; reflexivity.
Qed.

Lemma seq_go_inv L tid todo :
  forall fin cur dl x,
    L = dl ++ x :: todo -> Forall2 finished dl fin -> inv x cur ->
    fut cur <> Returned ->
    seq_inv L (fst (seq_go tid fin cur todo)).
Proof.
  induction todo as [|y todo IH]; intros fin cur dl x HL Hf Hi Hr; simpl;
    pose proof (inv_poll x cur tid Hi) as Hi';
    destruct (poll_task tid cur) as [cur' r] eqn:E; simpl in Hi';
    destruct r; simpl;
    try (apply poll_panicked_returned in E; contradiction);
    try (exists dl, x; split; [exact HL|]; split; [exact Hf|];
         split; [exact Hi'|]; eapply poll_pending_fut; exact E).
  - subst L. apply Forall2_app; [exact Hf|].
    constructor; [|constructor]. split; [eapply poll_ready_returned; eauto|exact Hi'].
  - apply (IH _ _ (dl ++ [x]) y).
    + subst L. rewrite <- app_assoc. reflexivity.
    + apply Forall2_app; [exact Hf|]. constructor; [|constructor].
      split; [eapply poll_ready_returned; eauto|exact Hi'].
    + apply inv_init.
    + discriminate.
Qed.

Lemma seq_step_inv L s e : seq_inv L s -> seq_inv L (seq_step s e).
Proof.
  destruct e as [tid|i], s as [fin cur todo|fin]; simpl.
  - intros (dl & x & HL & Hf & Hi & Hr). eapply seq_go_inv; eauto.
  - auto.
  - intros (dl & x & HL & Hf & Hi & Hr).
    destruct (Nat.ltb i (length fin)) eqn:Hlt.
    + exists dl, x. split; [exact HL|]. split; [|split; [exact Hi|exact Hr]].
      erewrite Forall2_nth_update_id; eauto. intros; eapply finished_timer_step; eauto.
    + destruct (Nat.eqb i (length fin)); simpl; [|eauto 7].
      exists dl, x. split; [exact HL|]. split; [exact Hf|].
      split; [apply inv_timer, Hi|rewrite timer_step_fut; exact Hr].
  - intros Hf. erewrite Forall2_nth_update_id; eauto.
    intros; eapply finished_timer_step; eauto.
Qed.

Lemma seq_run_inv L s evs : seq_inv L s -> seq_inv L (seq_run s evs).
Proof.
  revert s; induction evs as [|e evs IH]; intros s H; simpl; auto.
  apply IH, seq_step_inv, H.
Qed.

Lemma async_seq_inv evs : seq_inv [1; 2; 3; 4]%Z (seq_run async_seq evs).
Proof.
  apply seq_run_inv. simpl. exists [], 1%Z. split; [reflexivity|].
  split; [constructor|split; [apply inv_init|discriminate]].
Qed.


Lemma join_poll_inv tid L l :
  Forall2 md_ok L l ->
  Forall2 md_ok L (fst (join_poll tid l)) /\
  (snd (join_poll tid l) = true ->
   Forall (fun m => exists w, m = MDDone w) (fst (join_poll tid l))).
Proof.
  induction 1 as [|x m L l [Hi Hm] H (IH1 & IH2)]; simpl.
  - split; constructor.
  - destruct m as [w|w]; simpl in *.
    + pose proof (inv_poll x w tid Hi) as Hi'.
      destruct (poll_task tid w) as [w' r] eqn:E; simpl in Hi'.
      destruct (join_poll tid l) as [l'' d]; simpl in *.
      destruct r.
      * split; [constructor; [split; [exact Hi'|eapply poll_ready_returned; eauto]|exact IH1]|].
        intros Hd. constructor; eauto.
      * split; [constructor; [split; [exact Hi'|eapply poll_pending_fut; eauto]|exact IH1]|].
        discriminate.
      * apply poll_panicked_returned in E. contradiction.
    + destruct (join_poll tid l) as [l'' d]; simpl in *.
      split; [constructor; [split; assumption|exact IH1]|].
      intros Hd. constructor; eauto.
Qed.

Lemma md_done_finished L l :
  Forall2 md_ok L l -> Forall (fun m => exists w, m = MDDone w) l ->
  Forall2 finished L (map md_world l).
Proof.
  induction 1 as [|x m L l [Hi Hm] H IH]; intros Hd; simpl; constructor.
  - inversion Hd as [|? ? [w ->] _]; subst. split; assumption.
  - inversion Hd; auto.
Qed.

Lemma conc_step_inv L s e : conc_inv L s -> conc_inv L (conc_step s e).
Proof.
  destruct e as [tid|i], s as [l|ws]; simpl.
  - intros H. destruct (join_poll_inv tid L l H) as [H1 H2].
    destruct (join_poll tid l) as [l' d]; simpl in *.
    destruct d; simpl; [apply md_done_finished; auto|exact H1].
  - auto.
  - intros H. apply Forall2_nth_update; [exact H|].
    intros x [w|w] [Hi Hm]; simpl; split;
      rewrite ?timer_step_fut; auto; apply inv_timer, Hi.
  - intros H. erewrite Forall2_nth_update_id; eauto.
    intros; eapply finished_timer_step; eauto.
Qed.

Lemma conc_run_inv L s evs : conc_inv L s -> conc_inv L (conc_run s evs).
Proof.
  revert s; induction evs as [|e evs IH]; intros s H; simpl; auto.
  apply IH, conc_step_inv, H.
Qed.

Lemma join_of_inv xs : conc_inv xs (join_of xs).
Proof.
  induction xs as [|x xs IH]; simpl; constructor; auto.
  split; [apply inv_init|discriminate].
Qed.

Lemma join_poll_all_ready tid L l :
  Forall2 md_ok L l -> Forall (fun m => timer (md_world m) = Some []) l ->
  snd (join_poll tid l) = true.
Proof.
  induction 1 as [|x m L l [Hi Hm] H IH]; intros Ht; simpl; auto.
  inversion Ht as [|? ? Htm Ht']; subst.
  destruct m as [w|w]; simpl in *.
  - destruct w as [f fl tm o]; unfold inv in Hi; simpl in *; subst tm.
    destruct f as [x'|x'|], fl as [[|]|]; try tauto.
    + cbn. destruct (join_poll tid l) as [l'' d] eqn:E; simpl in *.
      apply IH; auto.
    + destruct Hi as (_ & [Hb|Hb] & _); discriminate.
  - destruct (join_poll tid l) as [l'' d]; simpl in *. apply IH; auto.
Qed.

Lemma tids_poll t w : tids_ok t (out w) -> tids_ok t (out (fst (poll_task t w))).
Proof.
  unfold tids_ok; destruct w as [[x|x|] fl tm o]; cbn;
    unfold await_poll_fn, poll_closure, load; simpl;
    try destruct fl as [[|]|]; cbn; intros H; auto;
    rewrite ?Forall_app; repeat split; auto; repeat constructor.
Qed.

Lemma tids_timer t w : tids_ok t (out w) -> tids_ok t (out (timer_step w)).
Proof.
  unfold tids_ok, timer_step; destruct w as [f fl [[|[] ?]|] o]; simpl; auto;
    intros H; apply Forall_app; split; auto; repeat constructor.
Qed.

Lemma tids_run t w evs :
  polls_from t evs = true -> tids_ok t (out w) -> tids_ok t (out (run w evs)).
Proof.
  revert w; induction evs as [|e evs IH]; intros w Hp H; simpl in *; auto.
  apply andb_prop in Hp as [He Hp]. apply IH; auto.
  destruct e as [t'|]; simpl.
  - apply Nat.eqb_eq in He; subst t'.
    pose proof (tids_poll t w H) as H'.
    destruct (poll_task t w) as [w' r]; simpl in *.
    unfold tids_ok in *; apply Forall_app; split; auto; repeat constructor.
  - apply tids_timer, H.
Qed.

Lemma tids_diags t x t0 t1 o :
  tids_ok t o -> diags o = [Println_start x t0; Println_done x t1] ->
  diags o = [Println_start x t; Println_done x t].
Proof.
  intros H Hd.
  assert (Hf : tids_ok t (diags o)).
  { unfold tids_ok, diags in *. apply Forall_forall. intros e He.
    apply filter_In in He as [He _]. eapply Forall_forall in H; eauto. }
  rewrite Hd in Hf |- *. unfold tids_ok in Hf.
  inversion Hf as [|? ? Ha Hf']; inversion Hf' as [|? ? Hb _]; subst. reflexivity.
Qed.

Lemma finished_diags x t w :
  finished x w -> tids_ok t (out w) ->
  diags (out w) = [Println_start x t; Println_done x t].
Proof.
  destruct w as [f fl tm o]; unfold finished, inv; simpl.
  intros [-> Hi] Ht. destruct fl as [[|]|], tm as [[|i tm]|]; try tauto.
  destruct Hi as ([t0 [t1 Hd]] & _). eapply tids_diags; eauto.
Qed.

Lemma Forall_nth_update {A} (P : A -> Prop) f i l :
  Forall P l -> (forall a, P a -> P (f a)) -> Forall P (nth_update i f l).
Proof.
  intros H Hf; revert i; induction H; intros [|i]; simpl; constructor; auto.
Qed.

Lemma seq_go_tids t todo :
  forall fin cur,
    Forall (fun w => tids_ok t (out w)) (fin ++ [cur]) ->
    seq_tids t (fst (seq_go t fin cur todo)).
Proof.
  induction todo as [|y todo IH]; intros fin cur H; simpl;
    apply Forall_app in H as [Hf Hc]; inversion Hc as [|? ? Hc' _]; subst;
    pose proof (tids_poll t cur Hc') as H';
    destruct (poll_task t cur) as [cur' r]; simpl in H';
    destruct r; unfold seq_tids; simpl;
    try (apply Forall_app; split; auto).
  apply IH. apply Forall_app; split; [apply Forall_app; split; auto|].
  constructor; [constructor|constructor].
Qed.

Lemma seq_run_tids t s evs :
  spolls_from t evs = true -> seq_tids t s -> seq_tids t (seq_run s evs).
Proof.
  revert s; induction evs as [|e evs IH]; intros s Hp H; simpl in *; auto.
  apply andb_prop in Hp as [He Hp]. apply IH; auto.
  destruct e as [t'|i], s as [fin cur todo|fin]; simpl.
  - apply Nat.eqb_eq in He; subst t'. apply seq_go_tids, H.
  - apply Nat.eqb_eq in He; subst t'. exact H.
  - unfold seq_tids in *; simpl in *. apply Forall_app in H as [Hf Hc].
    destruct (Nat.ltb i (length fin)); simpl.
    + apply Forall_app; split; auto. apply Forall_nth_update; auto. apply tids_timer.
    + destruct (Nat.eqb i (length fin)); simpl; apply Forall_app; split; auto.
      inversion Hc; subst. constructor; auto. apply tids_timer; auto.
  - unfold seq_tids in *; simpl in *. apply Forall_nth_update; auto. apply tids_timer.
Qed.





End MainFacts.

Module EchoFacts.
Import Echo.

Lemma fill_length (data buf : list Byte.byte) :
  length data <= length buf -> length (data ++ skipn (length data) buf) = length buf.
Proof. intros H. rewrite length_app, length_skipn. lia. Qed.

Lemma fill_front (data buf : list Byte.byte) :
  firstn (length data) (data ++ skipn (length data) buf) = data.
Proof.
  rewrite firstn_app, firstn_all, Nat.sub_diag, firstn_O, app_nil_r. reflexivity.
Qed.

Lemma handle_loop_step_ok buf c reads writes sent :
  chunk_ok c -> length buf = 1024 ->
  handle_loop buf (RdOk c :: reads) (WrOk :: writes) sent =
  handle_loop (c ++ skipn (length c) buf) reads writes (sent ++ c).
Proof.
  intros [Hne Hle] Hb. simpl.
  assert (Hn : Nat.leb (length c) (length buf) = true) by (apply Nat.leb_le; lia).
  destruct (length c) eqn:Hl; [destruct c; simpl in Hl; congruence|].
  rewrite Hn, <- Hl, fill_front. reflexivity.
Qed.

Lemma handle_loop_chunks chunks : forall buf sent reads writes,
  Forall chunk_ok chunks -> length buf = 1024 ->
  exists buf', length buf' = 1024 /\
    handle_loop buf (map RdOk chunks ++ reads)
                (repeat WrOk (length chunks) ++ writes) sent =
    handle_loop buf' reads writes (sent ++ concat chunks).
Proof.
  induction chunks as [|c chunks IH]; intros buf sent reads writes Hc Hb.
  - exists buf. rewrite app_nil_r. auto.
  - inversion Hc as [|? ? [Hne Hle] Hc']; subst.
    destruct (IH (c ++ skipn (length c) buf) (sent ++ c) reads writes Hc')
      as (buf' & Hb' & E).
    { rewrite fill_length; lia. }
    exists buf'. split; [exact Hb'|].
    change (map RdOk (c :: chunks) ++ reads) with (RdOk c :: (map RdOk chunks ++ reads)).
    change (repeat WrOk (length (c :: chunks)) ++ writes)
      with (WrOk :: (repeat WrOk (length chunks) ++ writes)).
    rewrite handle_loop_step_ok by first [exact Hb | split; auto].
    rewrite E. simpl. rewrite app_assoc. reflexivity.
Qed.



End EchoFacts.

Module Extra.
Import Work WorkFacts MainRs MainFacts Echo EchoFacts.

(** X1: in every run of [async_seq], the tasks created so far are those of
    a prefix of the labels 1, 2, 3, 4; every one of them but the awaited one
    has finished (one start line, one done line, timer thread ended), and
    the later labels have no task yet.  When it returns, all four tasks
    have finished. *)
Theorem async_seq_serial evs :
  seq_inv [1; 2; 3; 4]%Z (seq_run async_seq evs).
Proof. apply async_seq_inv. Qed.

(** X2: in every run of [async_seq], at most one timeout thread is running
    at any time: the 500 ms waits are serialised. *)
Theorem async_seq_one_timer evs :
  length (filter running (seq_worlds (seq_run async_seq evs))) <= 1.
Proof.
  pose proof (async_seq_inv evs) as H.
  assert (Hfin : forall L fin, Forall2 finished L fin -> filter running fin = []).
  { induction 1 as [|x w L fin Hw _ IH]; simpl; auto.
    unfold running. rewrite (finished_timer_done x w Hw). exact IH. }
  destruct (seq_run async_seq evs) as [fin cur todo|fin]; simpl in *.
  - destruct H as (dl & x & _ & Hf & _).
    rewrite filter_app, (Hfin _ _ Hf). simpl. destruct (running cur); simpl; lia.
  - rewrite (Hfin _ _ H). simpl. lia.
Qed.




(** X5: in every run of [async_concurrent], each task is in a reachable
    state of its label and [join!] keeps it as done exactly when it has
    returned, so no task is ever polled after completion (none panics);
    when [async_concurrent] returns, all four tasks have finished, each
    with one start line and one done line. *)
Theorem async_concurrent_inv evs :
  conc_inv [1; 2; 3; 4]%Z (conc_run async_concurrent evs).
Proof. apply conc_run_inv, join_of_inv. Qed.

(** X6: once every task's timeout thread has finished, the next poll of
    [async_concurrent] returns [Ready]. *)
Theorem async_concurrent_ready evs l tid :
  conc_run async_concurrent evs = ConcAt l ->
  Forall (fun m => timer (md_world m) = Some []) l ->
  snd (conc_poll tid (ConcAt l)) = Ready.
Proof.
  intros Hs Ht. pose proof (conc_run_inv _ _ evs (join_of_inv [1; 2; 3; 4]%Z)) as H.
  change (join_of [1; 2; 3; 4]%Z) with async_concurrent in H.
  rewrite Hs in H. simpl in H.
  pose proof (join_poll_all_ready tid _ l H Ht) as Hd. simpl.
  destruct (join_poll tid l) as [l' d]; simpl in Hd; subst d. reflexivity.
Qed.

Lemma async_concurrent_ready_witness :
  exists l,
    conc_run async_concurrent
      [CPoll 0; CTimer 0; CTimer 0; CTimer 1; CTimer 1;
       CTimer 2; CTimer 2; CTimer 3; CTimer 3] = ConcAt l /\
    Forall (fun m => timer (md_world m) = Some []) l /\
    snd (conc_poll 0 (ConcAt l)) = Ready.
Proof.
  eexists. split; [reflexivity|].
  split; [repeat constructor|].
  exact (async_concurrent_ready
           [CPoll 0; CTimer 0; CTimer 0; CTimer 1; CTimer 1;
            CTimer 2; CTimer 2; CTimer 3; CTimer 3] _ 0 eq_refl
           ltac:(repeat constructor)).
Defined.

(** X7: driven on a single thread [t] until it returns, [do_work_async x]
    prints the same two lines as the blocking [do_work x] run on [t]. *)
Theorem async_matches_do_work x t evs :
  polls_from t evs = true ->
  fut (run (do_work_async x) evs) = Returned ->
  diags (out (run (do_work_async x) evs)) = diags (do_work x t).
Proof.
  intros Hp Hr.
  assert (Ht : tids_ok t (out (run (do_work_async x) evs)))
    by (apply tids_run; [exact Hp|constructor]).
  rewrite (finished_diags x t _ (conj Hr (inv_reach x evs)) Ht). reflexivity.
Qed.

Lemma async_matches_do_work_witness :
  polls_from 3 [EPoll 3; ETimer; ETimer; EPoll 3] = true /\
  fut (run (do_work_async 7) [EPoll 3; ETimer; ETimer; EPoll 3]) = Returned /\
  diags (out (run (do_work_async 7) [EPoll 3; ETimer; ETimer; EPoll 3])) =
    diags (do_work 7 3).
Proof.
  split; [reflexivity|]. split; [reflexivity|].
  apply async_matches_do_work; reflexivity.
Defined.

(** X8: driven on a single thread [t] until it returns, [async_seq] prints
    the same lines in the same order as [sequential()] run on [t]. *)
Theorem async_seq_matches_sequential t evs fin :
  spolls_from t evs = true ->
  seq_run async_seq evs = SeqReturned fin ->
  flat_map (fun w => diags (out w)) fin = diags (sequential t).
Proof.
  intros Hp Hs.
  pose proof (async_seq_inv evs) as H. rewrite Hs in H. simpl in H.
  assert (Ht : seq_tids t (seq_run async_seq evs)).
  { apply seq_run_tids; [exact Hp|]. repeat constructor. }
  rewrite Hs in Ht. unfold seq_tids in Ht; simpl in Ht.
  inversion H as [|? w1 ? ? H1 Ha]; subst.
  inversion Ha as [|? w2 ? ? H2 Hb]; subst.
  inversion Hb as [|? w3 ? ? H3 Hc]; subst.
  inversion Hc as [|? w4 ? ? H4 Hd]; subst.
  inversion Hd; subst.
  inversion Ht as [|? ? T1 Ht1]; inversion Ht1 as [|? ? T2 Ht2];
    inversion Ht2 as [|? ? T3 Ht3]; inversion Ht3 as [|? ? T4 _]; subst.
  simpl.
  rewrite (finished_diags _ t w1 H1 T1), (finished_diags _ t w2 H2 T2),
          (finished_diags _ t w3 H3 T3), (finished_diags _ t w4 H4 T4).
  reflexivity.
Qed.

Lemma async_seq_matches_sequential_witness :
  exists fin,
    spolls_from 0 [SPoll 0; STimer 0; STimer 0; SPoll 0; STimer 1; STimer 1;
                   SPoll 0; STimer 2; STimer 2; SPoll 0; STimer 3; STimer 3;
                   SPoll 0] = true /\
    seq_run async_seq
      [SPoll 0; STimer 0; STimer 0; SPoll 0; STimer 1; STimer 1;
       SPoll 0; STimer 2; STimer 2; SPoll 0; STimer 3; STimer 3; SPoll 0]
      = SeqReturned fin /\
    flat_map (fun w => diags (out w)) fin = diags (sequential 0).
Proof.
  eexists. split; [reflexivity|]. split; [reflexivity|].
  apply (async_seq_matches_sequential 0
           [SPoll 0; STimer 0; STimer 0; SPoll 0; STimer 1; STimer 1;
            SPoll 0; STimer 2; STimer 2; SPoll 0; STimer 3; STimer 3; SPoll 0]);
    reflexivity.
Defined.


(** X10: when every read returns between 1 and 1024 bytes and every write
    succeeds, [handle] sends back exactly the bytes it read, in order (no
    stale byte of the reused buffer leaks), and returns at the first
    0-byte read without reading further. *)
Theorem handle_echoes chunks rest ws :
  Forall chunk_ok chunks ->
  handle (map RdOk chunks ++ RdOk [] :: rest) (repeat WrOk (length chunks) ++ ws) =
    (concat chunks, Finished).
Proof.
  intros Hc. unfold handle.
  destruct (handle_loop_chunks chunks buf0 [] (RdOk [] :: rest) ws Hc eq_refl)
    as (buf' & _ & E).
  rewrite E. reflexivity.
Qed.

Lemma handle_echoes_witness :
  Forall chunk_ok [[Byte.x61; Byte.x62]; [Byte.x63]] /\
  handle (map RdOk [[Byte.x61; Byte.x62]; [Byte.x63]] ++ RdOk [] :: [])
         (repeat WrOk 2 ++ []) =
    ([Byte.x61; Byte.x62; Byte.x63], Finished).
Proof.
  assert (H : Forall chunk_ok [[Byte.x61; Byte.x62]; [Byte.x63]]).
  { repeat constructor; try discriminate; simpl; lia. }
  split; [exact H|]. exact (handle_echoes _ [] [] H).
Defined.

(** X11: a read error makes [handle] panic (the [.unwrap()]) after it has
    echoed every chunk read before. *)
Theorem handle_read_error chunks rest ws :
  Forall chunk_ok chunks ->
  handle (map RdOk chunks ++ RdErr :: rest) (repeat WrOk (length chunks) ++ ws) =
    (concat chunks, Panic).
Proof.
  intros Hc. unfold handle.
  destruct (handle_loop_chunks chunks buf0 [] (RdErr :: rest) ws Hc eq_refl)
    as (buf' & _ & E).
  rewrite E. reflexivity.
Qed.

Lemma handle_read_error_witness :
  Forall chunk_ok [[Byte.x61]] /\
  handle (map RdOk [[Byte.x61]] ++ RdErr :: []) (repeat WrOk 1 ++ []) =
    ([Byte.x61], Panic).
Proof.
  assert (H : Forall chunk_ok [[Byte.x61]]).
  { repeat constructor; try discriminate; simpl; lia. }
  split; [exact H|]. exact (handle_read_error _ [] [] H).
Defined.

(** X12: a failed [write_all] makes [handle] panic after the earlier chunks
    and the part of the current chunk the failed write got out. *)
Theorem handle_write_error chunks c rest k ws :
  Forall chunk_ok chunks -> chunk_ok c ->
  handle (map RdOk chunks ++ RdOk c :: rest)
         (repeat WrOk (length chunks) ++ WrErr k :: ws) =
    (concat chunks ++ firstn (Nat.min k (length c)) c, Panic).
Proof.
  intros Hc [Hne Hle]. unfold handle.
  destruct (handle_loop_chunks chunks buf0 [] (RdOk c :: rest) (WrErr k :: ws) Hc eq_refl)
    as (buf' & Hb & E).
  rewrite E. simpl.
  assert (Hn : Nat.leb (length c) (length buf') = true) by (apply Nat.leb_le; lia).
  destruct (length c) as [|n] eqn:Hl; [destruct c; simpl in Hl; congruence|].
  rewrite Hn, <- Hl, firstn_app.
  replace (Nat.min k (length c) - length c) with 0 by lia.
  rewrite firstn_O, app_nil_r. reflexivity.
Qed.

Lemma handle_write_error_witness :
  Forall chunk_ok [] /\ chunk_ok [Byte.x61; Byte.x62] /\
  handle (map RdOk [] ++ RdOk [Byte.x61; Byte.x62] :: [])
         (repeat WrOk 0 ++ WrErr 1 :: []) = ([Byte.x61], Panic).
Proof.
  assert (H : chunk_ok [Byte.x61; Byte.x62]) by (split; [discriminate|simpl; lia]).
  split; [constructor|]. split; [exact H|].
  exact (handle_write_error [] _ [] 1 [] (Forall_nil _) H).
Defined.

(** X13: [listen] panics when [bind] fails, before accepting anything;
    otherwise it spawns one [handle] per accepted stream, in order, and
    panics at the first accept error, spawning nothing after it. *)
Theorem listen_spawns ss rest :
  listen false rest = ([], Panic) /\
  listen true (map AcOk ss ++ AcErr :: rest) = (ss, Panic) /\
  listen true (map AcOk ss) = (ss, Finished).
Proof.
  split; [reflexivity|]. unfold listen.
  split; induction ss as [|s ss IH]; simpl; rewrite ?IH; reflexivity.
Qed.

End Extra.
